(** * Slice argument accessors of [internal/simd/helpers_amd64.h]

    The header defines three Go-assembler macros, [slice_addr], [slice_len]
    and [slice_size], that read the fields of a slice header out of the
    argument frame of a hand-written amd64 routine.  This development embeds
    the macros as functions producing instruction lists, gives the two
    instructions they emit ([MOVQ], [MULQ]) an executable semantics over
    registers, the carry and overflow flags and the byte-addressed argument
    frame, and proves what the expansions compute, read and modify. *)

From Stdlib Require Import ZArith List String Bool Lia.
From coqutil Require Import Byte Word.LittleEndianList.
Import ListNotations.
Local Open Scope Z_scope.

(** * Definitions *)

(** ** Registers, operands and instructions *)

(** The amd64 data registers a Go assembly routine can name.  [FP] is not
    among them: it is the assembler's pseudo-register for the argument
    frame and only occurs as the base of an [Arg] operand.  Nor is [SP],
    the stack pointer that the frame is addressed from. *)
Inductive reg : Set :=
| AX | BX | CX | DX | SI | DI | BP
| R8 | R9 | R10 | R11 | R12 | R13 | R14 | R15.

Definition reg_eq_dec (a b : reg) : {a = b} + {a <> b}.
Proof. decide equality. Defined.

Definition reg_eqb (a b : reg) : bool :=
  if reg_eq_dec a b then true else false.

(** Operands as the assembler writes them: [$c], a register, and
    [name+off(FP)].  In [name+off(FP)] the name is a label for the
    assembler's checks; the byte that is addressed is [off] bytes above
    the start of the argument frame. *)
Inductive operand : Set :=
| Imm (c : Z)
| Reg (r : reg)
| Arg (name : string) (off : Z).

Inductive instr : Set :=
| MOVQ (src dst : operand)
| MULQ (src : operand).

(** [ELEMENT_SIZE] of [slice_size] is "passed as a const or as a register". *)
Inductive element_size : Set :=
| Const (c : Z)
| InReg (r : reg).

Definition esize_operand (e : element_size) : operand :=
  match e with
  | Const c => Imm c
  | InReg r => Reg r
  end.

(** ** The macros *)

(** [#define slice_addr(NAME, OFFSET, REGISTER) MOVQ NAME+OFFSET(FP), REGISTER] *)
Definition slice_addr (NAME : string) (OFFSET : Z) (REGISTER : reg) : list instr :=
  [MOVQ (Arg NAME OFFSET) (Reg REGISTER)].

(** [#define slice_len(NAME, OFFSET, REGISTER) MOVQ NAME+(8+OFFSET)(FP), REGISTER] *)
Definition slice_len (NAME : string) (OFFSET : Z) (REGISTER : reg) : list instr :=
  [MOVQ (Arg NAME (8 + OFFSET)) (Reg REGISTER)].

(** [slice_size(NAME, OFFSET, ELEMENT_SIZE, REGISTER)]: the length goes to
    [AX], the element size to [REGISTER], [MULQ] multiplies, and the low
    half of the product is copied from [AX] to [REGISTER]. *)
Definition slice_size (NAME : string) (OFFSET : Z)
    (ELEMENT_SIZE : element_size) (REGISTER : reg) : list instr :=
  slice_len NAME OFFSET AX ++
  [ MOVQ (esize_operand ELEMENT_SIZE) (Reg REGISTER);
    MULQ (Reg REGISTER);
    MOVQ (Reg AX) (Reg REGISTER) ].

(** A use of one of the three macros in an assembly file. *)
Inductive invocation : Set :=
| Slice_addr (NAME : string) (OFFSET : Z) (REGISTER : reg)
| Slice_len (NAME : string) (OFFSET : Z) (REGISTER : reg)
| Slice_size (NAME : string) (OFFSET : Z) (ELEMENT_SIZE : element_size)
    (REGISTER : reg).

Definition expand (i : invocation) : list instr :=
  match i with
  | Slice_addr n o r => slice_addr n o r
  | Slice_len n o r => slice_len n o r
  | Slice_size n o e r => slice_size n o e r
  end.

Definition expand_all (invs : list invocation) : list instr :=
  flat_map expand invs.

(** ** Machine state *)

Definition wrap64 (z : Z) : Z := z mod 2 ^ 64.

Definition regfile : Type := reg -> Z.

Definition upd (rf : regfile) (r : reg) (v : Z) : regfile :=
  fun r' => if reg_eqb r r' then v else rf r'.

Definition wf_regs (rf : regfile) : Prop :=
  forall r, 0 <= rf r < 2 ^ 64.

(** The argument frame, one byte per displacement from [FP]. *)
Definition frame_mem : Type := Z -> byte.

Definition read_bytes (f : frame_mem) (d : Z) (n : nat) : list byte :=
  map (fun i => f (d + Z.of_nat i)) (seq 0 n).

Definition load64 (f : frame_mem) (d : Z) : Z :=
  le_combine (read_bytes f d 8).

Definition store64 (f : frame_mem) (d v : Z) : frame_mem :=
  fun a =>
    if (d <=? a) && (a <? d + 8)
    then nth (Z.to_nat (a - d)) (le_split 8 v) Byte.x00
    else f a.

(** Memory accesses are recorded in the order they happen. *)
Inductive access : Set :=
| Load (disp : Z) (width : nat)
| Store (disp : Z) (width : nat).

Record machine : Type := Machine {
  regs : regfile;
  CF : bool;
  OF : bool;
  frame : frame_mem;
  accesses : list access
}.

Definition set_reg (r : reg) (v : Z) (m : machine) : machine :=
  Machine (upd (regs m) r v) (CF m) (OF m) (frame m) (accesses m).

Definition set_flags (c o : bool) (m : machine) : machine :=
  Machine (regs m) c o (frame m) (accesses m).

Definition set_frame (f : frame_mem) (m : machine) : machine :=
  Machine (regs m) (CF m) (OF m) f (accesses m).

Definition record (a : access) (m : machine) : machine :=
  Machine (regs m) (CF m) (OF m) (frame m) (accesses m ++ [a]).

(** ** Instruction semantics: a state-and-failure monad *)

Definition M (A : Type) : Type := machine -> option (A * machine).

Definition ret {A} (a : A) : M A := fun m => Some (a, m).

Definition bind {A B} (c : M A) (k : A -> M B) : M B :=
  fun m => match c m with
           | Some (a, m') => k a m'
           | None => None
           end.

Definition fail {A} : M A := fun _ => None.

Definition modify (f : machine -> machine) : M unit :=
  fun m => Some (tt, f m).

Definition gets {A} (f : machine -> A) : M A :=
  fun m => Some (f m, m).

Notation "x <- c ;; k" := (bind c (fun x => k))
  (at level 61, c at next level, right associativity).
Notation "c ;;; k" := (bind c (fun _ => k))
  (at level 61, right associativity).

Definition read_operand (o : operand) : M Z :=
  match o with
  | Imm c => ret (wrap64 c)
  | Reg r => gets (fun m => regs m r)
  | Arg _ off =>
      v <- gets (fun m => load64 (frame m) off) ;;
      modify (record (Load off 8)) ;;;
      ret v
  end.

Definition write_operand (o : operand) (v : Z) : M unit :=
  match o with
  | Imm _ => fail
  | Reg r => modify (set_reg r v)
  | Arg _ off =>
      modify (fun m => set_frame (store64 (frame m) off v) m) ;;;
      modify (record (Store off 8))
  end.

Definition is_mem (o : operand) : bool :=
  match o with Arg _ _ => true | _ => false end.

(** [MOVQ src, dst] copies a quadword and leaves the flags alone; there is
    no memory-to-memory form.  [MULQ src] multiplies [AX] by [src] as
    unsigned numbers, leaves the low half of the 128-bit product in [AX]
    and the high half in [DX], and sets [CF] and [OF] exactly when the high
    half is not zero; it has no immediate form. *)
Definition exec (i : instr) : M unit :=
  match i with
  | MOVQ src dst =>
      if is_mem src && is_mem dst then fail
      else v <- read_operand src ;; write_operand dst v
  | MULQ src =>
      match src with
      | Imm _ => fail
      | _ =>
          v <- read_operand src ;;
          a <- gets (fun m => regs m AX) ;;
          let p := a * v in
          modify (set_reg AX (wrap64 p)) ;;;
          modify (set_reg DX (p / 2 ^ 64)) ;;;
          modify (set_flags (negb (p / 2 ^ 64 =? 0)) (negb (p / 2 ^ 64 =? 0)))
      end
  end.

Fixpoint run (p : list instr) (m : machine) : option machine :=
  match p with
  | [] => Some m
  | i :: p' =>
      match exec i m with
      | Some (_, m') => run p' m'
      | None => None
      end
  end.

(** ** The slice header in the frame *)

(** Go's slice header: three consecutive quadwords. *)
Record slice : Set := Slice { addr : Z; len : Z; cap : Z }.

(** The quadword at displacement [d] holds the 64-bit number [v],
    least significant byte first. *)
Definition quad_holds (f : frame_mem) (d v : Z) : Prop :=
  0 <= v < 2 ^ 64 /\ read_bytes f d 8 = le_split 8 v.

Definition holds_slice (f : frame_mem) (off : Z) (s : slice) : Prop :=
  quad_holds f off (addr s) /\
  quad_holds f (off + 8) (len s) /\
  quad_holds f (off + 16) (cap s).

Definition put_slice (f : frame_mem) (off : Z) (s : slice) : frame_mem :=
  store64 (store64 (store64 f off (addr s)) (off + 8) (len s))
          (off + 16) (cap s).

Definition zero_frame : frame_mem := fun _ => Byte.x00.

Definition zero_regs : regfile := fun _ => 0.

Definition init (rf : regfile) (f : frame_mem) : machine :=
  Machine rf false false f [].

(** ** Quantities the statements speak about *)

(** The value that the [ELEMENT_SIZE] operand denotes in a register file. *)
Definition esize_value (e : element_size) (rf : regfile) : Z :=
  match e with
  | Const c => wrap64 c
  | InReg r => rf r
  end.

(** [slice_size] reads [ELEMENT_SIZE] in its second instruction, after the
    length has been loaded into [AX]. *)
Definition esize_moved (e : element_size) (OFFSET : Z) (m : machine) : Z :=
  esize_value e (upd (regs m) AX (load64 (frame m) (8 + OFFSET))).

(** Adding [k] to the displacement of every frame operand. *)
Definition shift_operand (k : Z) (o : operand) : operand :=
  match o with
  | Arg n off => Arg n (off + k)
  | _ => o
  end.

Definition shift_instr (k : Z) (i : instr) : instr :=
  match i with
  | MOVQ s d => MOVQ (shift_operand k s) (shift_operand k d)
  | MULQ s => MULQ (shift_operand k s)
  end.

(** The bytes of a [Load] lie inside the address and length quadwords of
    the slice header at [off], that is inside [off, off + 16). *)
Definition within_addr_len (off : Z) (a : access) : bool :=
  match a with
  | Load d w => (off <=? d) && (d + Z.of_nat w <=? off + 16)
  | Store _ _ => false
  end.

(** Two frames agree on the address and length quadwords at [off]. *)
Definition agree_addr_len (off : Z) (f g : frame_mem) : Prop :=
  forall a, off <= a < off + 16 -> f a = g a.

(** The state [slice_size] ends in: [L] is the loaded length, [E] the
    element size as moved, [a] what [AX] holds when [MULQ] executes. *)
Definition after_slice_size (OFFSET : Z) (ELEMENT_SIZE : element_size)
    (REGISTER : reg) (m : machine) : machine :=
  let L := load64 (frame m) (8 + OFFSET) in
  let E := esize_moved ELEMENT_SIZE OFFSET m in
  let a := if reg_eqb REGISTER AX then E else L in
  let p := a * E in
  let hi := p / 2 ^ 64 in
  Machine
    (upd (upd (upd (upd (upd (regs m) AX L) REGISTER E) AX (wrap64 p)) DX hi)
         REGISTER (wrap64 p))
    (negb (hi =? 0)) (negb (hi =? 0))
    (frame m)
    (accesses m ++ [Load (8 + OFFSET) 8]).

(** What [MULQ REGISTER] computes inside [slice_size]: [AX] times
    [REGISTER], where [REGISTER] holds the element size and [AX] the length,
    unless [REGISTER] is [AX] itself. *)
Definition mulq_product (OFFSET : Z) (ELEMENT_SIZE : element_size)
    (REGISTER : reg) (m : machine) : Z :=
  (if reg_eqb REGISTER AX then esize_moved ELEMENT_SIZE OFFSET m
   else load64 (frame m) (8 + OFFSET)) * esize_moved ELEMENT_SIZE OFFSET m.

(** The frame displacement of the slice header an invocation names, and
    the loads its expansion performs. *)
Definition inv_offset (i : invocation) : Z :=
  match i with
  | Slice_addr _ o _ | Slice_len _ o _ | Slice_size _ o _ _ => o
  end.

Definition inv_loads (i : invocation) : list access :=
  match i with
  | Slice_addr _ o _ => [Load o 8]
  | Slice_len _ o _ | Slice_size _ o _ _ => [Load (8 + o) 8]
  end.

(** The number of instructions an invocation expands to. *)
Definition inv_length (i : invocation) : nat :=
  match i with
  | Slice_addr _ _ _ | Slice_len _ _ _ => 1
  | Slice_size _ _ _ _ => 4
  end.

(** What ends up in the destination register of an invocation: the raw
    quadword of the frame for the two loads, the low half of the product
    for [slice_size]. *)
Definition inv_result (i : invocation) (m : machine) : Z :=
  match i with
  | Slice_addr _ o _ => load64 (frame m) o
  | Slice_len _ o _ => load64 (frame m) (8 + o)
  | Slice_size _ o e r => wrap64 (mulq_product o e r m)
  end.

Definition inv_dest (i : invocation) : reg :=
  match i with
  | Slice_addr _ _ r | Slice_len _ _ r | Slice_size _ _ _ r => r
  end.

(** ** Sequences of invocations *)

(** The registers the expansion of an invocation writes. *)
Definition clobbers (i : invocation) : list reg :=
  match i with
  | Slice_addr _ _ r | Slice_len _ _ r => [r]
  | Slice_size _ _ _ r => [r; AX; DX]
  end.

(** The displacement of the one quadword an expansion loads. *)
Definition inv_read_at (i : invocation) : Z :=
  match i with
  | Slice_addr _ o _ => o
  | Slice_len _ o _ | Slice_size _ o _ _ => 8 + o
  end.

(** The state the expansion of an invocation ends in. *)
Definition after_expand (i : invocation) (m : machine) : machine :=
  match i with
  | Slice_addr _ o r =>
      set_reg r (load64 (frame m) o) (record (Load o 8) m)
  | Slice_len _ o r =>
      set_reg r (load64 (frame m) (8 + o)) (record (Load (8 + o) 8) m)
  | Slice_size _ o e r => after_slice_size o e r m
  end.

Definition after_expand_all (invs : list invocation) (m : machine) : machine :=
  fold_left (fun m' i => after_expand i m') invs m.

(** ** Sample states *)

(** A frame whose argument at displacement 8 is a slice with base address
    4096, five elements and capacity seven. *)
Definition demo_frame : frame_mem :=
  put_slice zero_frame 8 (Slice 4096 5 7).

Definition demo_machine : machine := init zero_regs demo_frame.

(** The same frame, with [AX] and [DX] live before the macro runs. *)
Definition busy_machine : machine :=
  init (upd (upd (upd zero_regs AX 7) DX 9) CX 11) demo_frame.

(** The byte size that [slice_size] leaves in [BX] for a slice of [L]
    elements and the constant element size [E]. *)
Definition byte_size_in_BX (L E : Z) : option Z :=
  option_map (fun m' => regs m' BX)
    (run (slice_size "x" 0 (Const E) BX)
         (init zero_regs (put_slice zero_frame 0 (Slice 4096 L 7)))).

(** * Lemmas and theorems *)

(** ** Registers and little-endian quadwords *)

Lemma reg_eqb_refl (r : reg) : reg_eqb r r = true.
Proof. unfold reg_eqb. destruct (reg_eq_dec r r); congruence. Qed.

Lemma reg_eqb_neq (a b : reg) : a <> b -> reg_eqb a b = false.
Proof. unfold reg_eqb. destruct (reg_eq_dec a b); congruence. Qed.

Lemma load64_range (f : frame_mem) (d : Z) : 0 <= load64 f d < 2 ^ 64.
Proof.
  unfold load64.
  pose proof (le_combine_bound (read_bytes f d 8)) as H.
  unfold read_bytes in H. rewrite length_map, length_seq in H.
  exact H.
Qed.

Lemma load64_holds (f : frame_mem) (d v : Z) :
  quad_holds f d v -> load64 f d = v.
Proof.
  intros [Hv Hb]. unfold load64. rewrite Hb, le_combine_split.
  apply Z.mod_small. exact Hv.
Qed.

Lemma read_bytes_ext (f g : frame_mem) (d : Z) (n : nat) :
  (forall a, d <= a < d + Z.of_nat n -> f a = g a) ->
  read_bytes f d n = read_bytes g d n.
Proof.
  intros H. unfold read_bytes. apply map_ext_in.
  intros i Hi. apply in_seq in Hi. apply H. lia.
Qed.

Lemma load64_ext (f g : frame_mem) (d : Z) :
  (forall a, d <= a < d + 8 -> f a = g a) -> load64 f d = load64 g d.
Proof.
  intros H. unfold load64. f_equal. apply read_bytes_ext. exact H.
Qed.

Lemma upd_same (rf : regfile) (r : reg) (v : Z) : upd rf r v r = v.
Proof. unfold upd. now rewrite reg_eqb_refl. Qed.

Lemma upd_other (rf : regfile) (r r' : reg) (v : Z) :
  r <> r' -> upd rf r v r' = rf r'.
Proof. intros H. unfold upd. now rewrite reg_eqb_neq. Qed.

Lemma wf_upd (rf : regfile) (r : reg) (v : Z) :
  wf_regs rf -> 0 <= v < 2 ^ 64 -> wf_regs (upd rf r v).
Proof.
  intros Hrf Hv r'. unfold upd. destruct (reg_eqb r r'); auto.
Qed.

Lemma wrap64_range (z : Z) : 0 <= wrap64 z < 2 ^ 64.
Proof. unfold wrap64. apply Z.mod_pos_bound. lia. Qed.

Lemma esize_moved_entry (e : element_size) (OFFSET : Z) (m : machine) :
  e <> InReg AX -> esize_moved e OFFSET m = esize_value e (regs m).
Proof.
  intros H. unfold esize_moved. destruct e as [c | r]; simpl; [reflexivity |].
  apply upd_other. congruence.
Qed.

Lemma esize_value_range (e : element_size) (rf : regfile) :
  wf_regs rf -> 0 <= esize_value e rf < 2 ^ 64.
Proof.
  intros H. destruct e; simpl; [apply wrap64_range | apply H].
Qed.

Ltac regs_simpl :=
  repeat first
    [ rewrite upd_same
    | rewrite upd_other by (congruence || (intro; congruence)) ].

(** ** Running the expansions *)

Lemma run_app (p q : list instr) (m : machine) :
  run (p ++ q) m =
  match run p m with
  | Some m' => run q m'
  | None => None
  end.
Proof.
  revert m. induction p as [| i p IH]; intros m; simpl; [reflexivity |].
  destruct (exec i m) as [[u m'] |]; [apply IH | reflexivity].
Qed.

Lemma run_slice_addr (NAME : string) (OFFSET : Z) (REGISTER : reg) (m : machine) :
  run (slice_addr NAME OFFSET REGISTER) m =
  Some (set_reg REGISTER (load64 (frame m) OFFSET) (record (Load OFFSET 8) m)).
Proof. reflexivity. Qed.

Lemma run_slice_len (NAME : string) (OFFSET : Z) (REGISTER : reg) (m : machine) :
  run (slice_len NAME OFFSET REGISTER) m =
  Some (set_reg REGISTER (load64 (frame m) (8 + OFFSET))
          (record (Load (8 + OFFSET) 8) m)).
Proof. reflexivity. Qed.

Lemma run_slice_size (NAME : string) (OFFSET : Z) (ELEMENT_SIZE : element_size)
    (REGISTER : reg) (m : machine) :
  run (slice_size NAME OFFSET ELEMENT_SIZE REGISTER) m =
  Some (after_slice_size OFFSET ELEMENT_SIZE REGISTER m).
Proof.
  unfold slice_size. rewrite run_app, run_slice_len.
  destruct m as [rf c o f acc].
  destruct REGISTER, ELEMENT_SIZE; reflexivity.
Qed.

Lemma run_expand_frame (i : invocation) (m : machine) :
  exists m', run (expand i) m = Some m' /\ frame m' = frame m.
Proof.
  destruct i as [n o r | n o r | n o e r]; simpl expand.
  - rewrite run_slice_addr. eexists. split; reflexivity.
  - rewrite run_slice_len. eexists. split; reflexivity.
  - rewrite run_slice_size. eexists. split; reflexivity.
Qed.

Lemma run_expand_all_frame (pre : list invocation) (m : machine) :
  exists m', run (expand_all pre) m = Some m' /\ frame m' = frame m.
Proof.
  revert m. induction pre as [| i pre IH]; intros m.
  - exists m. split; reflexivity.
  - simpl expand_all. rewrite run_app.
    destruct (run_expand_frame i m) as (m1 & Hrun & Hf).
    rewrite Hrun. destruct (IH m1) as (m2 & Hrun2 & Hf2).
    exists m2. split; [exact Hrun2 | congruence].
Qed.

Lemma expand_all_app (p q : list invocation) :
  expand_all (p ++ q) = expand_all p ++ expand_all q.
Proof. unfold expand_all. apply flat_map_app. Qed.

Lemma demo_frame_holds : holds_slice demo_frame 8 (Slice 4096 5 7).
Proof.
  unfold holds_slice, quad_holds; simpl addr; simpl len; simpl cap.
  repeat split; try lia; vm_compute; reflexivity.
Qed.

(** ** The loads: [slice_addr] and [slice_len] *)

(** C3: in a frame whose quadword at [OFFSET] holds [A], the expansion of
    [slice_addr] runs to completion, performs the single 8-byte load at
    displacement [OFFSET] from [FP], leaves [A] in [REGISTER], and changes
    no other register, neither flag and no byte of the frame. *)
Theorem slice_addr_loads_address :
  forall (NAME : string) (OFFSET : Z) (REGISTER : reg) (m : machine) (A : Z),
    quad_holds (frame m) OFFSET A ->
    exists m',
      run (slice_addr NAME OFFSET REGISTER) m = Some m' /\
      regs m' REGISTER = A /\
      (forall r, r <> REGISTER -> regs m' r = regs m r) /\
      CF m' = CF m /\ OF m' = OF m /\
      frame m' = frame m /\
      accesses m' = accesses m ++ [Load OFFSET 8].
Proof.
  intros NAME OFFSET REGISTER m A HA.
  rewrite run_slice_addr. eexists. split; [reflexivity |].
  cbn [regs CF OF frame accesses set_reg record].
  repeat split.
  - rewrite upd_same. apply load64_holds, HA.
  - intros r Hr. apply upd_other. congruence.
Qed.

Lemma slice_addr_loads_address_witness :
  quad_holds (frame demo_machine) 8 4096 /\
  exists m',
    run (slice_addr "x" 8 BX) demo_machine = Some m' /\
    regs m' BX = 4096 /\
    (forall r, r <> BX -> regs m' r = regs demo_machine r) /\
    CF m' = CF demo_machine /\ OF m' = OF demo_machine /\
    frame m' = frame demo_machine /\
    accesses m' = accesses demo_machine ++ [Load 8 8].
Proof.
  assert (H : quad_holds (frame demo_machine) 8 4096)
    by (split; [lia | vm_compute; reflexivity]).
  split; [exact H |].
  exact (slice_addr_loads_address "x" 8 BX demo_machine 4096 H).
Defined.

(** C4: in a frame whose quadword at [OFFSET + 8], the one right after the
    address quadword, holds [L], the expansion of [slice_len] runs to
    completion, performs the single 8-byte load at displacement
    [8 + OFFSET], leaves [L] in [REGISTER], and changes no other register,
    neither flag and no byte of the frame. *)
Theorem slice_len_loads_length :
  forall (NAME : string) (OFFSET : Z) (REGISTER : reg) (m : machine) (L : Z),
    quad_holds (frame m) (OFFSET + 8) L ->
    exists m',
      run (slice_len NAME OFFSET REGISTER) m = Some m' /\
      regs m' REGISTER = L /\
      (forall r, r <> REGISTER -> regs m' r = regs m r) /\
      CF m' = CF m /\ OF m' = OF m /\
      frame m' = frame m /\
      accesses m' = accesses m ++ [Load (8 + OFFSET) 8] /\
      slice_len NAME OFFSET REGISTER = slice_addr NAME (OFFSET + 8) REGISTER.
Proof.
  intros NAME OFFSET REGISTER m L HL.
  rewrite run_slice_len. eexists. split; [reflexivity |].
  cbn [regs CF OF frame accesses set_reg record].
  repeat split.
  - rewrite upd_same, Z.add_comm. apply load64_holds, HL.
  - intros r Hr. apply upd_other. congruence.
  - unfold slice_len, slice_addr. now rewrite Z.add_comm.
Qed.

Lemma slice_len_loads_length_witness :
  quad_holds (frame demo_machine) (8 + 8) 5 /\
  exists m',
    run (slice_len "x" 8 BX) demo_machine = Some m' /\
    regs m' BX = 5 /\
    (forall r, r <> BX -> regs m' r = regs demo_machine r) /\
    CF m' = CF demo_machine /\ OF m' = OF demo_machine /\
    frame m' = frame demo_machine /\
    accesses m' = accesses demo_machine ++ [Load (8 + 8) 8] /\
    slice_len "x" 8 BX = slice_addr "x" (8 + 8) BX.
Proof.
  assert (H : quad_holds (frame demo_machine) (8 + 8) 5)
    by (split; [lia | vm_compute; reflexivity]).
  split; [exact H |].
  exact (slice_len_loads_length "x" 8 BX demo_machine 5 H).
Defined.

(** ** The product: [slice_size] *)

Lemma after_slice_size_dest (OFFSET : Z) (e : element_size) (r : reg)
    (m : machine) :
  r <> AX ->
  regs (after_slice_size OFFSET e r m) r =
  wrap64 (load64 (frame m) (8 + OFFSET) * esize_moved e OFFSET m).
Proof.
  intros Hr. unfold after_slice_size. cbn [regs].
  rewrite (reg_eqb_neq r AX Hr). apply upd_same.
Qed.

Lemma after_slice_size_AX (OFFSET : Z) (e : element_size) (r : reg)
    (m : machine) :
  regs (after_slice_size OFFSET e r m) AX =
  wrap64 ((if reg_eqb r AX then esize_moved e OFFSET m
           else load64 (frame m) (8 + OFFSET)) * esize_moved e OFFSET m).
Proof.
  unfold after_slice_size. cbn [regs].
  destruct (reg_eq_dec r AX) as [-> | Hr].
  - now rewrite upd_same.
  - rewrite upd_other by exact Hr.
    destruct (reg_eq_dec r DX) as [-> | Hd]; regs_simpl; reflexivity.
Qed.

Lemma after_slice_size_DX (OFFSET : Z) (e : element_size) (r : reg)
    (m : machine) :
  r <> DX ->
  regs (after_slice_size OFFSET e r m) DX =
  (if reg_eqb r AX then esize_moved e OFFSET m
   else load64 (frame m) (8 + OFFSET)) * esize_moved e OFFSET m / 2 ^ 64.
Proof.
  intros Hr. unfold after_slice_size. cbn [regs].
  rewrite upd_other by exact Hr. apply upd_same.
Qed.

Lemma after_slice_size_other (OFFSET : Z) (e : element_size) (r r' : reg)
    (m : machine) :
  r' <> r -> r' <> AX -> r' <> DX ->
  regs (after_slice_size OFFSET e r m) r' = regs m r'.
Proof.
  intros H1 H2 H3. unfold after_slice_size. cbn [regs].
  regs_simpl. reflexivity.
Qed.

(** C1, for destinations other than [AX]: for every such register, in
    a frame whose length quadword holds [L], the expansion of [slice_size]
    leaves [(L * E) mod 2^64] in the destination, with no check for
    overflow; [E] is the value [ELEMENT_SIZE] has when the macro moves it,
    which is its value on entry for a constant and for every register
    except [AX]. *)
Theorem slice_size_byte_size :
  forall (NAME : string) (OFFSET : Z) (ELEMENT_SIZE : element_size)
         (REGISTER : reg) (m : machine) (L : Z),
    REGISTER <> AX ->
    quad_holds (frame m) (OFFSET + 8) L ->
    exists m',
      run (slice_size NAME OFFSET ELEMENT_SIZE REGISTER) m = Some m' /\
      regs m' REGISTER =
        (L * esize_moved ELEMENT_SIZE OFFSET m) mod 2 ^ 64 /\
      (ELEMENT_SIZE <> InReg AX ->
       esize_moved ELEMENT_SIZE OFFSET m = esize_value ELEMENT_SIZE (regs m)).
Proof.
  intros NAME OFFSET ES REGISTER m L Hr HL.
  rewrite run_slice_size. eexists. split; [reflexivity |]. split.
  - rewrite after_slice_size_dest by exact Hr.
    rewrite Z.add_comm, (load64_holds _ _ _ HL). reflexivity.
  - apply esize_moved_entry.
Qed.

Lemma slice_size_byte_size_witness :
  BX <> AX /\
  quad_holds (frame demo_machine) (8 + 8) 5 /\
  exists m',
    run (slice_size "x" 8 (Const 4) BX) demo_machine = Some m' /\
    regs m' BX = (5 * esize_moved (Const 4) 8 demo_machine) mod 2 ^ 64 /\
    (Const 4 <> InReg AX ->
     esize_moved (Const 4) 8 demo_machine =
     esize_value (Const 4) (regs demo_machine)).
Proof.
  assert (Hr : BX <> AX) by discriminate.
  assert (H : quad_holds (frame demo_machine) (8 + 8) 5)
    by (split; [lia | vm_compute; reflexivity]).
  split; [exact Hr |]. split; [exact H |].
  exact (slice_size_byte_size "x" 8 (Const 4) BX demo_machine 5 Hr H).
Defined.

(** With destination [AX] and the frame of [demo_machine] (length 5),
    element size 4 yields 16 where the byte size is 20. *)
Lemma slice_size_byte_size_fails_for_AX :
  quad_holds (frame demo_machine) (8 + 8) 5 /\
  esize_value (Const 4) (regs demo_machine) = 4 /\
  exists m',
    run (slice_size "x" 8 (Const 4) AX) demo_machine = Some m' /\
    regs m' AX = 16 /\
    regs m' AX <> (5 * 4) mod 2 ^ 64.
Proof.
  split; [split; [lia | vm_compute; reflexivity] |].
  split; [reflexivity |].
  rewrite run_slice_size. eexists. split; [reflexivity |].
  split; [vm_compute; reflexivity | vm_compute; discriminate].
Qed.

Example slice_size_cases :
  byte_size_in_BX 0 8 = Some 0 /\
  byte_size_in_BX 5 4 = Some 20 /\
  byte_size_in_BX (2 ^ 32) (2 ^ 32) = Some 0 /\
  byte_size_in_BX 1 1 = Some 1.
Proof. repeat split; vm_compute; reflexivity. Qed.

(** C2, for an element size that is a constant or sits in a register
    other than [AX]: with destination [AX] the length loaded into [AX] is
    overwritten by the element size [E] before the multiplication, so
    [AX] ends with [(E * E) mod 2^64]; on the sample frame with length 5
    and element size 4 that is 16 and not 20.  When the element size is
    itself passed in [AX], the length has replaced it and [AX] ends with
    [(L * L) mod 2^64]. *)
Theorem slice_size_into_AX_squares :
  (forall (NAME : string) (OFFSET : Z) (ELEMENT_SIZE : element_size)
          (m : machine) (E : Z),
     ELEMENT_SIZE <> InReg AX ->
     esize_value ELEMENT_SIZE (regs m) = E ->
     exists m',
       run (slice_size NAME OFFSET ELEMENT_SIZE AX) m = Some m' /\
       regs m' AX = (E * E) mod 2 ^ 64) /\
  (forall (NAME : string) (OFFSET : Z) (m : machine) (L : Z),
     quad_holds (frame m) (OFFSET + 8) L ->
     exists m',
       run (slice_size NAME OFFSET (InReg AX) AX) m = Some m' /\
       regs m' AX = (L * L) mod 2 ^ 64) /\
  (exists m',
     quad_holds (frame demo_machine) (8 + 8) 5 /\
     run (slice_size "x" 8 (Const 4) AX) demo_machine = Some m' /\
     regs m' AX = (4 * 4) mod 2 ^ 64 /\
     regs m' AX <> (5 * 4) mod 2 ^ 64).
Proof.
  split; [| split].
  - intros NAME OFFSET ES m E Hes HE.
    rewrite run_slice_size. eexists. split; [reflexivity |].
    rewrite after_slice_size_AX, reg_eqb_refl.
    rewrite (esize_moved_entry _ _ _ Hes), HE. reflexivity.
  - intros NAME OFFSET m L HL.
    rewrite run_slice_size. eexists. split; [reflexivity |].
    rewrite after_slice_size_AX, reg_eqb_refl.
    unfold esize_moved. cbn [esize_value]. rewrite upd_same.
    rewrite Z.add_comm in HL. rewrite (load64_holds _ _ _ HL). reflexivity.
  - rewrite run_slice_size. eexists.
    split; [split; [lia | vm_compute; reflexivity] |].
    split; [reflexivity |].
    split; [vm_compute; reflexivity | vm_compute; discriminate].
Qed.

Lemma slice_size_into_AX_squares_witness :
  InReg CX <> InReg AX /\
  esize_value (InReg CX) (regs busy_machine) = 11 /\
  exists m',
    run (slice_size "x" 8 (InReg CX) AX) busy_machine = Some m' /\
    regs m' AX = (11 * 11) mod 2 ^ 64.
Proof.
  assert (He : InReg CX <> InReg AX) by discriminate.
  assert (Hv : esize_value (InReg CX) (regs busy_machine) = 11)
    by reflexivity.
  split; [exact He |]. split; [exact Hv |].
  exact (proj1 slice_size_into_AX_squares "x"%string 8 (InReg CX)
           busy_machine 11 He Hv).
Defined.

(** With destination [AX] and the element size passed in [AX] itself
    (7 on entry, on the frame with length 5), [AX] ends with 25, the
    square of the length, and not with 49, the square of the element
    size. *)
Lemma slice_size_into_AX_fails_for_esize_in_AX :
  quad_holds (frame busy_machine) (8 + 8) 5 /\
  esize_value (InReg AX) (regs busy_machine) = 7 /\
  exists m',
    run (slice_size "x" 8 (InReg AX) AX) busy_machine = Some m' /\
    regs m' AX = 25 /\
    regs m' AX <> (7 * 7) mod 2 ^ 64.
Proof.
  split; [split; [lia | vm_compute; reflexivity] |].
  split; [reflexivity |].
  rewrite run_slice_size. eexists. split; [reflexivity |].
  split; [vm_compute; reflexivity | vm_compute; discriminate].
Qed.

(** When the element size itself is passed in [AX], the length load
    overwrites it: the macro multiplies the length by itself. *)
Lemma esize_moved_AX (OFFSET : Z) (m : machine) :
  esize_moved (InReg AX) OFFSET m = load64 (frame m) (8 + OFFSET).
Proof. unfold esize_moved. simpl. apply upd_same. Qed.

(** C5: after [slice_size], every register other than the destination,
    [AX] and [DX] has the value it had before; [AX] and [DX] hold halves
    of the product, whatever they held before: running the macro from a
    state that differs only in [AX] and [DX] ends with the same [AX] and
    [DX] (unless [DX] is where the element size was passed).  [AX] ends
    with the low half of the product and [DX] with the high half, or with
    the low half when [DX] is the destination. *)
Theorem slice_size_clobbers_AX_DX :
  forall (NAME : string) (OFFSET : Z) (ELEMENT_SIZE : element_size)
         (REGISTER : reg) (m : machine),
    exists m',
      run (slice_size NAME OFFSET ELEMENT_SIZE REGISTER) m = Some m' /\
      (forall r, r <> REGISTER -> r <> AX -> r <> DX ->
                 regs m' r = regs m r) /\
      regs m' AX = wrap64 (mulq_product OFFSET ELEMENT_SIZE REGISTER m) /\
      regs m' DX =
        (if reg_eqb REGISTER DX
         then wrap64 (mulq_product OFFSET ELEMENT_SIZE REGISTER m)
         else mulq_product OFFSET ELEMENT_SIZE REGISTER m / 2 ^ 64) /\
      (forall ax dx : Z,
         ELEMENT_SIZE <> InReg DX ->
         exists m2',
           run (slice_size NAME OFFSET ELEMENT_SIZE REGISTER)
               (set_reg DX dx (set_reg AX ax m)) = Some m2' /\
           regs m2' AX = regs m' AX /\
           regs m2' DX = regs m' DX).
Proof.
  intros NAME OFFSET ES REGISTER m.
  rewrite run_slice_size. eexists. split; [reflexivity |].
  split; [| split; [| split]].
  - intros r H1 H2 H3. now apply after_slice_size_other.
  - apply after_slice_size_AX.
  - destruct (reg_eq_dec REGISTER DX) as [-> | Hd].
    + unfold after_slice_size. cbn [regs]. simpl reg_eqb.
      now rewrite upd_same.
    + rewrite (reg_eqb_neq _ _ Hd). now apply after_slice_size_DX.
  - intros ax dx Hes. rewrite run_slice_size. eexists.
    split; [reflexivity |].
    assert (HE : esize_moved ES OFFSET (set_reg DX dx (set_reg AX ax m)) =
                 esize_moved ES OFFSET m).
    { unfold esize_moved. cbn [regs frame set_reg].
      destruct ES as [c | r]; simpl; [reflexivity |].
      destruct (reg_eq_dec r AX) as [-> | Ha]; [now rewrite !upd_same |].
      assert (r <> DX) by congruence.
      regs_simpl. reflexivity. }
    split.
    + rewrite !after_slice_size_AX, HE. reflexivity.
    + unfold after_slice_size. rewrite HE. cbn [regs frame set_reg].
      destruct (reg_eq_dec REGISTER DX) as [-> | Hd].
      * rewrite !upd_same. reflexivity.
      * regs_simpl. reflexivity.
Qed.

Lemma slice_size_clobbers_AX_DX_witness :
  exists m',
    run (slice_size "x" 8 (Const 4) BX) busy_machine = Some m' /\
    (forall r, r <> BX -> r <> AX -> r <> DX ->
               regs m' r = regs busy_machine r) /\
    regs m' AX = wrap64 (mulq_product 8 (Const 4) BX busy_machine) /\
    regs m' DX =
      (if reg_eqb BX DX
       then wrap64 (mulq_product 8 (Const 4) BX busy_machine)
       else mulq_product 8 (Const 4) BX busy_machine / 2 ^ 64) /\
    (forall ax dx : Z,
       Const 4 <> InReg DX ->
       exists m2',
         run (slice_size "x" 8 (Const 4) BX)
             (set_reg DX dx (set_reg AX ax busy_machine)) = Some m2' /\
         regs m2' AX = regs m' AX /\
         regs m2' DX = regs m' DX).
Proof.
  exact (slice_size_clobbers_AX_DX "x" 8 (Const 4) BX busy_machine).
Defined.

(** On the sample state [AX] held 7 and [DX] held 9; afterwards they hold
    20 and 0, and [CX] still holds 11. *)
Example slice_size_clobbers_sample :
  option_map (fun m' => (regs m' AX, regs m' DX, regs m' CX, regs m' BX))
    (run (slice_size "x" 8 (Const 4) BX) busy_machine) =
  Some (20, 0, 11, 20).
Proof. vm_compute. reflexivity. Qed.

(** C10, for an element size that is a constant or sits in a register
    other than [AX]: for a destination other than [AX] and [DX],
    [slice_size] ends with the low 64 bits of [L * E] in both [AX] and the
    destination and the high 64 bits in [DX], so that
    [DX * 2^64 + REGISTER] is the full product. *)
Theorem slice_size_full_product :
  forall (NAME : string) (OFFSET : Z) (ELEMENT_SIZE : element_size)
         (REGISTER : reg) (m : machine) (L E : Z),
    REGISTER <> AX -> REGISTER <> DX ->
    ELEMENT_SIZE <> InReg AX ->
    wf_regs (regs m) ->
    quad_holds (frame m) (OFFSET + 8) L ->
    esize_value ELEMENT_SIZE (regs m) = E ->
    exists m',
      run (slice_size NAME OFFSET ELEMENT_SIZE REGISTER) m = Some m' /\
      regs m' AX = (L * E) mod 2 ^ 64 /\
      regs m' REGISTER = regs m' AX /\
      regs m' DX = (L * E) / 2 ^ 64 /\
      0 <= regs m' DX < 2 ^ 64 /\
      regs m' DX * 2 ^ 64 + regs m' REGISTER = L * E.
Proof.
  intros NAME OFFSET ES REGISTER m L E Ha Hd Hes Hwf HL HE.
  rewrite run_slice_size. eexists. split; [reflexivity |].
  rewrite after_slice_size_AX, after_slice_size_dest by exact Ha.
  rewrite after_slice_size_DX by exact Hd.
  rewrite (reg_eqb_neq _ _ Ha).
  rewrite (esize_moved_entry _ _ _ Hes), HE.
  rewrite Z.add_comm in HL. rewrite (load64_holds _ _ _ HL).
  assert (HEr : 0 <= E < 2 ^ 64)
    by (rewrite <- HE; now apply esize_value_range).
  destruct HL as [HLr _].
  unfold wrap64.
  repeat split; try reflexivity.
  - apply Z.div_pos; nia.
  - apply Z.div_lt_upper_bound; nia.
  - pose proof (Z.div_mod (L * E) (2 ^ 64)) as H. lia.
Qed.

Lemma busy_machine_wf : wf_regs (regs busy_machine).
Proof. intros r. destruct r; vm_compute; split; congruence. Qed.

Lemma slice_size_full_product_witness :
  BX <> AX /\ BX <> DX /\
  InReg CX <> InReg AX /\
  wf_regs (regs busy_machine) /\
  quad_holds (frame busy_machine) (8 + 8) 5 /\
  esize_value (InReg CX) (regs busy_machine) = 11 /\
  exists m',
    run (slice_size "x" 8 (InReg CX) BX) busy_machine = Some m' /\
    regs m' AX = (5 * 11) mod 2 ^ 64 /\
    regs m' BX = regs m' AX /\
    regs m' DX = (5 * 11) / 2 ^ 64 /\
    0 <= regs m' DX < 2 ^ 64 /\
    regs m' DX * 2 ^ 64 + regs m' BX = 5 * 11.
Proof.
  assert (Ha : BX <> AX) by discriminate.
  assert (Hd : BX <> DX) by discriminate.
  assert (He : InReg CX <> InReg AX) by discriminate.
  assert (H : quad_holds (frame busy_machine) (8 + 8) 5)
    by (split; [lia | vm_compute; reflexivity]).
  assert (Hv : esize_value (InReg CX) (regs busy_machine) = 11)
    by reflexivity.
  split; [exact Ha |]. split; [exact Hd |]. split; [exact He |].
  split; [exact busy_machine_wf |]. split; [exact H |]. split; [exact Hv |].
  exact (slice_size_full_product "x" 8 (InReg CX) BX busy_machine 5 11
           Ha Hd He busy_machine_wf H Hv).
Defined.

(** With the element size passed in [AX] (7 on entry, on the frame with
    length 5) and destination [BX], both [AX] and [BX] end with 25 and
    [DX] with 0: the pair holds [L * L], not the product 35 of length and
    element size. *)
Lemma slice_size_full_product_fails_for_esize_in_AX :
  BX <> AX /\ BX <> DX /\
  quad_holds (frame busy_machine) (8 + 8) 5 /\
  esize_value (InReg AX) (regs busy_machine) = 7 /\
  exists m',
    run (slice_size "x" 8 (InReg AX) BX) busy_machine = Some m' /\
    regs m' AX = 25 /\ regs m' BX = 25 /\ regs m' DX = 0 /\
    regs m' AX <> (5 * 7) mod 2 ^ 64 /\
    regs m' DX * 2 ^ 64 + regs m' BX <> 5 * 7.
Proof.
  split; [discriminate |]. split; [discriminate |].
  split; [split; [lia | vm_compute; reflexivity] |].
  split; [reflexivity |].
  rewrite run_slice_size. eexists. split; [reflexivity |].
  repeat split; vm_compute; (reflexivity || discriminate).
Qed.

(** ** Offsets, order of use, and the frame *)

(** C6: for every offset, using [OFFSET + 8] in place of [OFFSET] in
    [slice_addr] or [slice_len] adds exactly 8 to the displacement of the
    frame operand and leaves the rest of the expansion as it was; the load
    that is executed moves from [OFFSET] to [OFFSET + 8], and from
    [8 + OFFSET] to [8 + OFFSET + 8]. *)
Theorem offset_plus_8_shifts_load :
  forall (NAME : string) (OFFSET : Z) (REGISTER : reg) (m : machine),
    slice_addr NAME (OFFSET + 8) REGISTER =
      map (shift_instr 8) (slice_addr NAME OFFSET REGISTER) /\
    slice_len NAME (OFFSET + 8) REGISTER =
      map (shift_instr 8) (slice_len NAME OFFSET REGISTER) /\
    (exists m0 m8,
       run (slice_addr NAME OFFSET REGISTER) m = Some m0 /\
       run (slice_addr NAME (OFFSET + 8) REGISTER) m = Some m8 /\
       accesses m0 = accesses m ++ [Load OFFSET 8] /\
       accesses m8 = accesses m ++ [Load (OFFSET + 8) 8] /\
       regs m8 REGISTER = load64 (frame m) (OFFSET + 8)) /\
    (exists m0 m8,
       run (slice_len NAME OFFSET REGISTER) m = Some m0 /\
       run (slice_len NAME (OFFSET + 8) REGISTER) m = Some m8 /\
       accesses m0 = accesses m ++ [Load (8 + OFFSET) 8] /\
       accesses m8 = accesses m ++ [Load (8 + OFFSET + 8) 8] /\
       regs m8 REGISTER = load64 (frame m) (8 + OFFSET + 8)).
Proof.
  intros NAME OFFSET REGISTER m.
  assert (Hd : 8 + (OFFSET + 8) = 8 + OFFSET + 8) by lia.
  split; [reflexivity |].
  split; [unfold slice_len; cbn [map shift_instr shift_operand]; now rewrite Hd |].
  split.
  - rewrite !run_slice_addr. do 2 eexists.
    repeat split. cbn [regs set_reg record]. apply upd_same.
  - rewrite !run_slice_len, Hd. do 2 eexists.
    repeat split. cbn [regs set_reg record]. apply upd_same.
Qed.

(** C7: whatever macros were expanded and executed before it, the
    expansion of [slice_addr] for a given [(NAME, OFFSET, REGISTER)] is the
    same instruction list, appended to what came before, and it leaves the
    same value in [REGISTER] as it does when run first, on the same frame;
    no macro changes the frame. *)
Theorem slice_addr_independent_of_history :
  forall (pre : list invocation) (NAME : string) (OFFSET : Z)
         (REGISTER : reg) (m : machine),
    expand_all (pre ++ [Slice_addr NAME OFFSET REGISTER]) =
      expand_all pre ++ slice_addr NAME OFFSET REGISTER /\
    exists m1 m2,
      run (slice_addr NAME OFFSET REGISTER) m = Some m1 /\
      run (expand_all (pre ++ [Slice_addr NAME OFFSET REGISTER])) m =
        Some m2 /\
      regs m2 REGISTER = regs m1 REGISTER /\
      frame m2 = frame m.
Proof.
  intros pre NAME OFFSET REGISTER m.
  assert (He : expand_all (pre ++ [Slice_addr NAME OFFSET REGISTER]) =
               expand_all pre ++ slice_addr NAME OFFSET REGISTER).
  { rewrite expand_all_app. reflexivity. }
  split; [exact He |].
  rewrite He, run_app.
  destruct (run_expand_all_frame pre m) as (mp & Hp & Hf).
  rewrite Hp, !run_slice_addr. do 2 eexists.
  split; [reflexivity |]. split; [reflexivity |].
  cbn [regs frame set_reg record]. rewrite !upd_same, Hf.
  split; reflexivity.
Qed.

(** Re-expanding [slice_addr] after [slice_len], into the same register. *)
Example slice_addr_after_slice_len :
  option_map (fun m' => regs m' BX)
    (run (slice_len "x" 8 BX ++ slice_addr "x" 8 BX) demo_machine) =
  option_map (fun m' => regs m' BX)
    (run (slice_addr "x" 8 BX) demo_machine).
Proof. vm_compute. reflexivity. Qed.

Lemma within_load (off d : Z) :
  off <= d -> d + 8 <= off + 16 ->
  forallb (within_addr_len off) [Load d 8] = true.
Proof.
  intros H1 H2. cbn [forallb within_addr_len].
  rewrite andb_true_r. apply andb_true_iff.
  split; apply Z.leb_le; [lia | change (Z.of_nat 8) with 8; lia].
Qed.

(** C8: the expansion of each macro leaves every byte of the frame as it
    was and performs no store; its only access is an 8-byte load inside
    the address and length quadwords [OFFSET .. OFFSET + 15]; the capacity
    quadword at [OFFSET + 16] is not read: changing the frame anywhere
    outside the address and length quadwords changes no register and no
    flag of the final state. *)
Theorem macros_read_only_addr_len :
  forall (i : invocation) (m : machine),
    exists m' new,
      run (expand i) m = Some m' /\
      frame m' = frame m /\
      accesses m' = accesses m ++ new /\
      forallb (within_addr_len (inv_offset i)) new = true /\
      forall g : frame_mem,
        agree_addr_len (inv_offset i) (frame m) g ->
        exists m2',
          run (expand i) (set_frame g m) = Some m2' /\
          (forall r, regs m2' r = regs m' r) /\
          CF m2' = CF m' /\ OF m2' = OF m'.
Proof.
  intros i m.
  assert (Hload : forall o g, agree_addr_len o (frame m) g ->
            load64 g o = load64 (frame m) o /\
            load64 g (8 + o) = load64 (frame m) (8 + o)).
  { intros o g Hg. split; symmetry; apply load64_ext; intros a Ha;
      apply Hg; lia. }
  destruct i as [n o r | n o r | n o e r]; simpl expand; simpl inv_offset.
  - rewrite run_slice_addr. do 2 eexists.
    split; [reflexivity |]. split; [reflexivity |].
    split; [reflexivity |]. split.
    + apply within_load; lia.
    + intros g Hg. rewrite run_slice_addr. eexists.
      split; [reflexivity |]. cbn [regs CF OF frame set_reg set_frame record].
      destruct (Hload o g Hg) as [-> _]. repeat split.
  - rewrite run_slice_len. do 2 eexists.
    split; [reflexivity |]. split; [reflexivity |].
    split; [reflexivity |]. split.
    + apply within_load; lia.
    + intros g Hg. rewrite run_slice_len. eexists.
      split; [reflexivity |]. cbn [regs CF OF frame set_reg set_frame record].
      destruct (Hload o g Hg) as [_ ->]. repeat split.
  - rewrite run_slice_size. do 2 eexists.
    split; [reflexivity |]. split; [reflexivity |].
    split; [reflexivity |]. split.
    + apply within_load; lia.
    + intros g Hg. rewrite run_slice_size. eexists.
      split; [reflexivity |].
      unfold after_slice_size, esize_moved.
      cbn [regs CF OF frame set_reg set_frame record].
      destruct (Hload o g Hg) as [_ ->]. repeat split.
Qed.

(** C9: from every machine state, whatever bytes the frame holds at the
    named place, the expansion of each macro runs to completion without
    failing; it is a fixed list of one or four instructions executed in
    order, performing the same single load whatever the data; the
    destination receives whatever quadword the frame holds there (or the
    product computed from it), unchecked. *)
Theorem macros_never_fail_or_branch :
  forall (i : invocation) (m : machine),
    exists m',
      run (expand i) m = Some m' /\
      List.length (expand i) = inv_length i /\
      accesses m' = accesses m ++ inv_loads i /\
      regs m' (inv_dest i) = inv_result i m.
Proof.
  intros i m.
  destruct i as [n o r | n o r | n o e r]; simpl expand.
  - rewrite run_slice_addr. eexists. repeat split.
    cbn [regs set_reg record inv_dest inv_result frame]. apply upd_same.
  - rewrite run_slice_len. eexists. repeat split.
    cbn [regs set_reg record inv_dest inv_result frame]. apply upd_same.
  - rewrite run_slice_size. eexists. repeat split.
    unfold after_slice_size, mulq_product.
    cbn [regs inv_dest inv_result]. apply upd_same.
Qed.

(** The slice of [demo_frame] starts at displacement 8.  Naming offset 12
    instead reads the upper half of the base address and the lower half of
    the length as one quadword, [5 * 2^32], without any complaint. *)
Example slice_addr_wrong_offset :
  option_map (fun m' => (regs m' BX, accesses m'))
    (run (slice_addr "x" 12 BX) demo_machine) =
  Some (5 * 2 ^ 32, [Load 12 8]).
Proof. vm_compute. reflexivity. Qed.

(** ** Sequences of macro uses *)

Lemma run_expand_after (i : invocation) (m : machine) :
  run (expand i) m = Some (after_expand i m).
Proof.
  destruct i as [n o r | n o r | n o e r]; simpl expand.
  - apply run_slice_addr.
  - apply run_slice_len.
  - apply run_slice_size.
Qed.

Lemma run_expand_all_after (invs : list invocation) (m : machine) :
  run (expand_all invs) m = Some (after_expand_all invs m).
Proof.
  revert m. induction invs as [| i invs IH]; intros m; [reflexivity |].
  simpl expand_all. rewrite run_app, run_expand_after. apply IH.
Qed.

Lemma after_expand_frame (i : invocation) (m : machine) :
  frame (after_expand i m) = frame m.
Proof. destruct i; reflexivity. Qed.

Lemma after_expand_all_frame (invs : list invocation) (m : machine) :
  frame (after_expand_all invs m) = frame m.
Proof.
  revert m. induction invs as [| i invs IH]; intros m; [reflexivity |].
  unfold after_expand_all in *. simpl. rewrite IH. apply after_expand_frame.
Qed.

Lemma after_expand_keeps (i : invocation) (m : machine) (r : reg) :
  ~ In r (clobbers i) -> regs (after_expand i m) r = regs m r.
Proof.
  destruct i as [n o d | n o d | n o e d]; simpl; intros H.
  - apply upd_other. intuition.
  - apply upd_other. intuition.
  - apply after_slice_size_other; intuition.
Qed.

Lemma mulq_product_range (OFFSET : Z) (e : element_size) (r : reg)
    (m : machine) :
  wf_regs (regs m) ->
  0 <= esize_moved e OFFSET m < 2 ^ 64 /\
  0 <= mulq_product OFFSET e r m < 2 ^ 64 * 2 ^ 64.
Proof.
  intros Hwf.
  pose proof (load64_range (frame m) (8 + OFFSET)) as HL.
  assert (HE : 0 <= esize_moved e OFFSET m < 2 ^ 64).
  { unfold esize_moved. apply esize_value_range, wf_upd; assumption. }
  split; [exact HE |].
  unfold mulq_product. destruct (reg_eqb r AX); nia.
Qed.

Lemma after_slice_size_wf (OFFSET : Z) (e : element_size) (r : reg)
    (m : machine) :
  wf_regs (regs m) -> wf_regs (regs (after_slice_size OFFSET e r m)).
Proof.
  intros Hwf.
  destruct (mulq_product_range OFFSET e r m Hwf) as [HE Hp].
  unfold mulq_product in Hp.
  unfold after_slice_size. cbn [regs].
  repeat apply wf_upd; try exact Hwf; try apply wrap64_range;
    try apply load64_range; try exact HE.
  split; [apply Z.div_pos; lia | apply Z.div_lt_upper_bound; lia].
Qed.

Lemma after_expand_wf (i : invocation) (m : machine) :
  wf_regs (regs m) -> wf_regs (regs (after_expand i m)).
Proof.
  intros Hwf. destruct i as [n o r | n o r | n o e r]; simpl.
  - apply wf_upd; [exact Hwf | apply load64_range].
  - apply wf_upd; [exact Hwf | apply load64_range].
  - now apply after_slice_size_wf.
Qed.

(** X1: a register that no invocation of a sequence writes ([REGISTER] of
    each macro, and [AX] and [DX] for [slice_size]) has, after the whole
    sequence has run, the value it had before. *)
Theorem unclobbered_register_survives :
  forall (invs : list invocation) (r : reg) (m : machine),
    (forall i, In i invs -> ~ In r (clobbers i)) ->
    exists m',
      run (expand_all invs) m = Some m' /\
      regs m' r = regs m r.
Proof.
  intros invs r m H. rewrite run_expand_all_after.
  eexists. split; [reflexivity |].
  revert m. induction invs as [| i invs IH]; intros m; [reflexivity |].
  unfold after_expand_all in *. simpl.
  rewrite IH by (intros j Hj; apply H; now right).
  apply after_expand_keeps, H. now left.
Qed.

Lemma unclobbered_register_survives_witness :
  (forall i,
     In i [Slice_addr "x" 8 BX; Slice_size "x" 8 (Const 4) SI] ->
     ~ In CX (clobbers i)) /\
  exists m',
    run (expand_all [Slice_addr "x" 8 BX; Slice_size "x" 8 (Const 4) SI])
        busy_machine = Some m' /\
    regs m' CX = regs busy_machine CX.
Proof.
  assert (H : forall i,
             In i [Slice_addr "x" 8 BX; Slice_size "x" 8 (Const 4) SI] ->
             ~ In CX (clobbers i)).
  { intros i [<- | [<- | []]]; simpl; intuition discriminate. }
  split; [exact H |].
  exact (unclobbered_register_survives _ CX busy_machine H).
Defined.

(** X2: if every register holds a 64-bit value, then after any sequence
    of the macros every register still holds a 64-bit value; the sequence
    runs to its end and the frame is what it was. *)
Theorem macros_keep_registers_64_bit :
  forall (invs : list invocation) (m : machine),
    wf_regs (regs m) ->
    exists m',
      run (expand_all invs) m = Some m' /\
      wf_regs (regs m') /\
      frame m' = frame m.
Proof.
  intros invs m Hwf. rewrite run_expand_all_after.
  eexists. split; [reflexivity |].
  split; [| apply after_expand_all_frame].
  revert m Hwf. induction invs as [| i invs IH]; intros m Hwf; [exact Hwf |].
  unfold after_expand_all in *. simpl. apply IH, after_expand_wf, Hwf.
Qed.

Lemma macros_keep_registers_64_bit_witness :
  wf_regs (regs busy_machine) /\
  exists m',
    run (expand_all [Slice_size "x" 8 (InReg CX) BX; Slice_len "x" 8 DX])
        busy_machine = Some m' /\
    wf_regs (regs m') /\
    frame m' = frame busy_machine.
Proof.
  split; [exact busy_machine_wf |].
  exact (macros_keep_registers_64_bit _ busy_machine busy_machine_wf).
Defined.

(** X3: when the element size is passed in [AX], the length load of
    [slice_size] replaces it before it is used: a destination other than
    [AX] ends with [(L * L) mod 2^64], whatever [AX] held on entry. *)
Theorem slice_size_element_size_in_AX :
  forall (NAME : string) (OFFSET : Z) (REGISTER : reg) (m : machine) (L : Z),
    REGISTER <> AX ->
    quad_holds (frame m) (OFFSET + 8) L ->
    exists m',
      run (slice_size NAME OFFSET (InReg AX) REGISTER) m = Some m' /\
      regs m' REGISTER = (L * L) mod 2 ^ 64.
Proof.
  intros NAME OFFSET REGISTER m L Hr HL.
  rewrite run_slice_size. eexists. split; [reflexivity |].
  rewrite after_slice_size_dest by exact Hr.
  rewrite esize_moved_AX.
  rewrite Z.add_comm in HL. rewrite (load64_holds _ _ _ HL). reflexivity.
Qed.

Lemma slice_size_element_size_in_AX_witness :
  BX <> AX /\
  quad_holds (frame busy_machine) (8 + 8) 5 /\
  exists m',
    run (slice_size "x" 8 (InReg AX) BX) busy_machine = Some m' /\
    regs m' BX = (5 * 5) mod 2 ^ 64.
Proof.
  assert (Hr : BX <> AX) by discriminate.
  assert (H : quad_holds (frame busy_machine) (8 + 8) 5)
    by (split; [lia | vm_compute; reflexivity]).
  split; [exact Hr |]. split; [exact H |].
  exact (slice_size_element_size_in_AX "x" 8 BX busy_machine 5 Hr H).
Defined.

(** X4: [slice_size] does not test for overflow, but it leaves the
    outcome in the flags: for a destination other than [AX] and an element
    size [E] not passed in [AX], [CF] and [OF] are equal after the macro
    and are set exactly when [L * E] does not fit in 64 bits; when it fits,
    the destination holds [L * E] itself and [DX] is zero. *)
Theorem slice_size_flags_report_overflow :
  forall (NAME : string) (OFFSET : Z) (ELEMENT_SIZE : element_size)
         (REGISTER : reg) (m : machine) (L E : Z),
    REGISTER <> AX -> REGISTER <> DX ->
    ELEMENT_SIZE <> InReg AX ->
    wf_regs (regs m) ->
    quad_holds (frame m) (OFFSET + 8) L ->
    esize_value ELEMENT_SIZE (regs m) = E ->
    exists m',
      run (slice_size NAME OFFSET ELEMENT_SIZE REGISTER) m = Some m' /\
      CF m' = OF m' /\
      (CF m' = true <-> 2 ^ 64 <= L * E) /\
      (L * E < 2 ^ 64 -> regs m' REGISTER = L * E /\ regs m' DX = 0).
Proof.
  intros NAME OFFSET ES REGISTER m L E Ha Hd Hes Hwf HL HE.
  rewrite run_slice_size. eexists. split; [reflexivity |].
  rewrite after_slice_size_dest by exact Ha.
  rewrite after_slice_size_DX by exact Hd.
  unfold after_slice_size. cbn [CF OF].
  rewrite (reg_eqb_neq _ _ Ha).
  rewrite (esize_moved_entry _ _ _ Hes), HE.
  rewrite Z.add_comm in HL. rewrite (load64_holds _ _ _ HL).
  destruct HL as [HLr _].
  assert (HEr : 0 <= E < 2 ^ 64)
    by (rewrite <- HE; now apply esize_value_range).
  split; [reflexivity |]. split.
  - rewrite negb_true_iff, Z.eqb_neq. split.
    + intros Hne.
      destruct (Z_lt_le_dec (L * E) (2 ^ 64)) as [Hlt | Hge]; [| exact Hge].
      exfalso. apply Hne. apply Z.div_small. nia.
    + intros Hge Hz.
      assert (1 <= L * E / 2 ^ 64)
        by (apply Z.div_le_lower_bound; lia).
      lia.
  - intros Hlt. unfold wrap64. split.
    + apply Z.mod_small. nia.
    + apply Z.div_small. nia.
Qed.

Lemma slice_size_flags_report_overflow_witness :
  BX <> AX /\ BX <> DX /\
  Const 4 <> InReg AX /\
  wf_regs (regs busy_machine) /\
  quad_holds (frame busy_machine) (8 + 8) 5 /\
  esize_value (Const 4) (regs busy_machine) = 4 /\
  exists m',
    run (slice_size "x" 8 (Const 4) BX) busy_machine = Some m' /\
    CF m' = OF m' /\
    (CF m' = true <-> 2 ^ 64 <= 5 * 4) /\
    (5 * 4 < 2 ^ 64 -> regs m' BX = 5 * 4 /\ regs m' DX = 0).
Proof.
  assert (Ha : BX <> AX) by discriminate.
  assert (Hd : BX <> DX) by discriminate.
  assert (He : Const 4 <> InReg AX) by discriminate.
  assert (H : quad_holds (frame busy_machine) (8 + 8) 5)
    by (split; [lia | vm_compute; reflexivity]).
  assert (Hv : esize_value (Const 4) (regs busy_machine) = 4) by reflexivity.
  split; [exact Ha |]. split; [exact Hd |]. split; [exact He |].
  split; [exact busy_machine_wf |]. split; [exact H |]. split; [exact Hv |].
  exact (slice_size_flags_report_overflow "x" 8 (Const 4) BX busy_machine 5 4
           Ha Hd He busy_machine_wf H Hv).
Defined.

(** X5: the usual preamble, base address then byte size of the same
    slice.  If the address register is none of [AX], [DX] and the size
    register, the size register is not [AX], and the element size is a
    constant or sits in a register other than [AX] and the address
    register, then after [slice_addr] followed by [slice_size] the first
    register holds the address, the second [(L * E) mod 2^64], and the two
    loads were the address quadword and then the length quadword. *)
Theorem slice_addr_then_slice_size :
  forall (NAME : string) (OFFSET : Z) (ELEMENT_SIZE : element_size)
         (PTR SIZE : reg) (m : machine) (A L : Z),
    PTR <> AX -> PTR <> DX -> PTR <> SIZE -> SIZE <> AX ->
    ELEMENT_SIZE <> InReg AX -> ELEMENT_SIZE <> InReg PTR ->
    quad_holds (frame m) OFFSET A ->
    quad_holds (frame m) (OFFSET + 8) L ->
    exists m',
      run (slice_addr NAME OFFSET PTR ++
           slice_size NAME OFFSET ELEMENT_SIZE SIZE) m = Some m' /\
      regs m' PTR = A /\
      regs m' SIZE = (L * esize_value ELEMENT_SIZE (regs m)) mod 2 ^ 64 /\
      accesses m' = accesses m ++ [Load OFFSET 8; Load (8 + OFFSET) 8] /\
      frame m' = frame m.
Proof.
  intros NAME OFFSET ES PTR SIZE m A L Hpa Hpd Hps Hsa Hea Hep HA HL.
  rewrite run_app, run_slice_addr, run_slice_size.
  eexists. split; [reflexivity |].
  rewrite Z.add_comm in HL.
  split; [| split; [| split]].
  - rewrite after_slice_size_other by assumption.
    cbn [regs set_reg record]. rewrite upd_same. now apply load64_holds.
  - rewrite after_slice_size_dest by exact Hsa.
    unfold esize_moved. cbn [regs frame set_reg record].
    rewrite (load64_holds _ _ _ HL). unfold wrap64. do 2 f_equal.
    destruct ES as [c | r]; simpl; [reflexivity |].
    assert (r <> AX) by congruence. assert (r <> PTR) by congruence.
    regs_simpl. reflexivity.
  - unfold after_slice_size. cbn [accesses frame set_reg record].
    now rewrite <- app_assoc.
  - reflexivity.
Qed.

Lemma slice_addr_then_slice_size_witness :
  SI <> AX /\ SI <> DX /\ SI <> BX /\ BX <> AX /\
  InReg CX <> InReg AX /\ InReg CX <> InReg SI /\
  quad_holds (frame busy_machine) 8 4096 /\
  quad_holds (frame busy_machine) (8 + 8) 5 /\
  exists m',
    run (slice_addr "x" 8 SI ++ slice_size "x" 8 (InReg CX) BX)
        busy_machine = Some m' /\
    regs m' SI = 4096 /\
    regs m' BX =
      (5 * esize_value (InReg CX) (regs busy_machine)) mod 2 ^ 64 /\
    accesses m' = accesses busy_machine ++ [Load 8 8; Load (8 + 8) 8] /\
    frame m' = frame busy_machine.
Proof.
  assert (H1 : SI <> AX) by discriminate.
  assert (H2 : SI <> DX) by discriminate.
  assert (H3 : SI <> BX) by discriminate.
  assert (H4 : BX <> AX) by discriminate.
  assert (H5 : InReg CX <> InReg AX) by discriminate.
  assert (H6 : InReg CX <> InReg SI) by discriminate.
  assert (HA : quad_holds (frame busy_machine) 8 4096)
    by (split; [lia | vm_compute; reflexivity]).
  assert (HL : quad_holds (frame busy_machine) (8 + 8) 5)
    by (split; [lia | vm_compute; reflexivity]).
  repeat (split; [assumption |]).
  exact (slice_addr_then_slice_size "x" 8 (InReg CX) SI BX busy_machine
           4096 5 H1 H2 H3 H4 H5 H6 HA HL).
Defined.

(** X6: [slice_len], and [slice_size] with a constant element size, give
    the same results after any sequence of the macros as when run first:
    the destination of [slice_len], and the destination, [AX] and [DX] of
    [slice_size], depend on the frame alone, which no macro changes. *)
Theorem slice_len_and_size_independent_of_history :
  forall (pre : list invocation) (NAME : string) (OFFSET c : Z)
         (REGISTER : reg) (m : machine),
    (exists m1 m2,
       run (slice_len NAME OFFSET REGISTER) m = Some m1 /\
       run (expand_all pre ++ slice_len NAME OFFSET REGISTER) m = Some m2 /\
       regs m2 REGISTER = regs m1 REGISTER) /\
    (exists m1 m2,
       run (slice_size NAME OFFSET (Const c) REGISTER) m = Some m1 /\
       run (expand_all pre ++ slice_size NAME OFFSET (Const c) REGISTER) m =
         Some m2 /\
       regs m2 REGISTER = regs m1 REGISTER /\
       regs m2 AX = regs m1 AX /\
       regs m2 DX = regs m1 DX /\
       CF m2 = CF m1 /\ OF m2 = OF m1).
Proof.
  intros pre NAME OFFSET c REGISTER m.
  pose proof (after_expand_all_frame pre m) as Hf.
  split.
  - rewrite run_app, run_expand_all_after, !run_slice_len.
    do 2 eexists. split; [reflexivity |]. split; [reflexivity |].
    cbn [regs set_reg record frame]. now rewrite !upd_same, Hf.
  - rewrite run_app, run_expand_all_after, !run_slice_size.
    do 2 eexists. split; [reflexivity |]. split; [reflexivity |].
    assert (HE : forall m0, esize_moved (Const c) OFFSET m0 = wrap64 c)
      by reflexivity.
    unfold after_slice_size. rewrite !HE, Hf. cbn [regs CF OF].
    destruct (reg_eq_dec REGISTER AX) as [-> | Ha];
      [| destruct (reg_eq_dec REGISTER DX) as [-> | Hd]];
      regs_simpl; repeat split; reflexivity.
Qed.

(** ** A slice header written into the frame *)

Lemma read_bytes_store64_same (f : frame_mem) (d v : Z) :
  read_bytes (store64 f d v) d 8 = le_split 8 v.
Proof.
  unfold read_bytes.
  transitivity (map (fun i => nth i (le_split 8 v) Byte.x00) (seq 0 8)).
  - apply map_ext_in. intros i Hi. apply in_seq in Hi. unfold store64.
    replace ((d <=? d + Z.of_nat i) && (d + Z.of_nat i <? d + 8)) with true.
    + f_equal. lia.
    + symmetry. apply andb_true_iff. split; [apply Z.leb_le | apply Z.ltb_lt]; lia.
  - reflexivity.
Qed.

Lemma read_bytes_store64_other (f : frame_mem) (d d' v : Z) :
  d' + 8 <= d \/ d + 8 <= d' ->
  read_bytes (store64 f d v) d' 8 = read_bytes f d' 8.
Proof.
  intros H. apply read_bytes_ext. intros a Ha. unfold store64.
  replace ((d <=? a) && (a <? d + 8)) with false; [reflexivity |].
  symmetry. apply andb_false_iff.
  destruct H; [left; apply Z.leb_gt | right; apply Z.ltb_ge]; lia.
Qed.

Lemma load64_le_split (f : frame_mem) (d v : Z) :
  read_bytes f d 8 = le_split 8 v -> load64 f d = wrap64 v.
Proof.
  intros H. unfold load64, wrap64. rewrite H, le_combine_split. reflexivity.
Qed.

(** X7: when a slice header is written into the frame at [OFFSET] as
    three consecutive little-endian quadwords (address, length, capacity),
    [slice_addr] reads the address back and [slice_len] the length, each
    as a 64-bit value; the capacity has no influence. *)
Theorem macros_read_back_slice_header :
  forall (f : frame_mem) (rf : regfile) (NAME : string) (OFFSET : Z)
         (REGISTER : reg) (s : slice),
    (exists m',
       run (slice_addr NAME OFFSET REGISTER) (init rf (put_slice f OFFSET s))
         = Some m' /\
       regs m' REGISTER = wrap64 (addr s)) /\
    (exists m',
       run (slice_len NAME OFFSET REGISTER) (init rf (put_slice f OFFSET s))
         = Some m' /\
       regs m' REGISTER = wrap64 (len s)).
Proof.
  intros f rf NAME OFFSET REGISTER s. split.
  - rewrite run_slice_addr. eexists. split; [reflexivity |].
    cbn [regs set_reg record frame init]. rewrite upd_same.
    apply load64_le_split. unfold put_slice.
    rewrite !read_bytes_store64_other by lia.
    apply read_bytes_store64_same.
  - rewrite run_slice_len. eexists. split; [reflexivity |].
    cbn [regs set_reg record frame init]. rewrite upd_same.
    apply load64_le_split. unfold put_slice.
    rewrite read_bytes_store64_other by lia.
    rewrite Z.add_comm. apply read_bytes_store64_same.
Qed.

(** X8: each expansion depends on the frame through one quadword only:
    [slice_addr] through the bytes [OFFSET .. OFFSET + 7], [slice_len] and
    [slice_size] through the bytes [OFFSET + 8 .. OFFSET + 15].  Changing
    any other byte of the frame, the length for [slice_addr] or the
    address for the other two included, changes no register and no flag
    of the final state. *)
Theorem macros_depend_on_one_quadword :
  forall (i : invocation) (m : machine) (g : frame_mem),
    (forall a, inv_read_at i <= a < inv_read_at i + 8 -> frame m a = g a) ->
    exists m1 m2,
      run (expand i) m = Some m1 /\
      run (expand i) (set_frame g m) = Some m2 /\
      (forall r, regs m2 r = regs m1 r) /\
      CF m2 = CF m1 /\ OF m2 = OF m1.
Proof.
  intros i m g H.
  assert (Hl : load64 g (inv_read_at i) = load64 (frame m) (inv_read_at i))
    by (symmetry; apply load64_ext; exact H).
  rewrite !run_expand_after. do 2 eexists.
  split; [reflexivity |]. split; [reflexivity |].
  destruct i as [n o r | n o r | n o e r];
    cbn [inv_read_at] in Hl;
    cbn [after_expand set_reg record regs CF OF frame set_frame].
  - rewrite Hl. repeat split.
  - rewrite Hl. repeat split.
  - unfold after_slice_size, esize_moved.
    cbn [regs CF OF frame set_frame]. rewrite !Hl. repeat split.
Qed.

(** A frame that differs from [demo_frame] in the length and the capacity
    of the slice only. *)
Lemma demo_frame_other_length :
  forall a, 8 <= a < 8 + 8 ->
    demo_frame a = put_slice zero_frame 8 (Slice 4096 6 9) a.
Proof.
  intros a Ha.
  assert (Hc : a = 8 \/ a = 9 \/ a = 10 \/ a = 11 \/
               a = 12 \/ a = 13 \/ a = 14 \/ a = 15) by lia.
  repeat (destruct Hc as [-> | Hc]; [vm_compute; reflexivity |]).
  subst a. vm_compute. reflexivity.
Defined.

Lemma macros_depend_on_one_quadword_witness :
  (forall a,
     inv_read_at (Slice_addr "x" 8 BX) <= a
       < inv_read_at (Slice_addr "x" 8 BX) + 8 ->
     frame demo_machine a = put_slice zero_frame 8 (Slice 4096 6 9) a) /\
  exists m1 m2,
    run (expand (Slice_addr "x" 8 BX)) demo_machine = Some m1 /\
    run (expand (Slice_addr "x" 8 BX))
        (set_frame (put_slice zero_frame 8 (Slice 4096 6 9)) demo_machine)
      = Some m2 /\
    (forall r, regs m2 r = regs m1 r) /\
    CF m2 = CF m1 /\ OF m2 = OF m1.
Proof.
  split; [exact demo_frame_other_length |].
  exact (macros_depend_on_one_quadword (Slice_addr "x" 8 BX) demo_machine
           (put_slice zero_frame 8 (Slice 4096 6 9))
           demo_frame_other_length).
Defined.

Lemma after_expand_accesses (i : invocation) (m : machine) :
  accesses (after_expand i m) = accesses m ++ inv_loads i.
Proof. destruct i; reflexivity. Qed.

(** X9: a sequence of macro uses performs exactly one 8-byte load per
    use, in the order of the uses, at [OFFSET] for [slice_addr] and at
    [8 + OFFSET] for [slice_len] and [slice_size]; it performs no store. *)
Theorem sequence_performs_one_load_per_macro :
  forall (invs : list invocation) (m : machine),
    exists m',
      run (expand_all invs) m = Some m' /\
      accesses m' = accesses m ++ flat_map inv_loads invs /\
      List.length (flat_map inv_loads invs) = List.length invs /\
      (forall d w, ~ In (Store d w) (flat_map inv_loads invs)).
Proof.
  intros invs m. rewrite run_expand_all_after.
  eexists. split; [reflexivity |]. split; [| split].
  - revert m. induction invs as [| i invs IH]; intros m.
    + simpl. now rewrite app_nil_r.
    + unfold after_expand_all in *. simpl.
      rewrite IH, after_expand_accesses. now rewrite <- app_assoc.
  - induction invs as [| i invs IH]; [reflexivity |].
    simpl. rewrite length_app, IH. now destruct i.
  - intros d w Hin. apply in_flat_map in Hin.
    destruct Hin as ([n o r | n o r | n o e r] & _ & Hin);
      simpl in Hin; destruct Hin as [Hin | []]; discriminate.
Qed.
